(** * Runtime memory manipulation: the [ContextualLLMChat] workflow and the
    token-budgeted [Memory] it drives.

    The workflow steps ([_path_to_block_name], [update_memory_context], [init],
    [chat]) are embedded from the notebook
    "Manipulating Memory at Runtime" (src/unnamed/part_000).  The [Memory]
    class itself (queue flush on [aput], context assembly on [aget]) lives in
    llama_index core, outside the notebook; it is modelled
    from the specification (sections 3, 4.4 and 4.5). *)

From Stdlib Require Import String Ascii List Bool Arith Lia.
Import ListNotations.
Open Scope string_scope.
Open Scope list_scope.

(* ------------------------------------------------------------------ *)
(** ** Data model *)

(** Content parts of a chat message / static block: [TextBlock(text=...)]
    and [ImageBlock(path=...)]. *)
Inductive Content : Type :=
| CText (text : string)
| CImage (path : string).

Inductive MessageRole : Type := User | Assistant | System | Tool.

(** [ChatMessage(role=..., blocks=[...])]. *)
Record ChatMessage : Type := mkMsg {
  role : MessageRole;
  blocks : list Content
}.

(** A memory block: [StaticMemoryBlock(name, static_content)] has fixed
    content; any other block fetches its content from an external
    capability (retrieval, fact extraction, summarisation). *)
Inductive BlockKind : Type :=
| Static (static_content : list Content)
| Dynamic (source : string).

Record MemoryBlock : Type := mkBlock {
  name : string;
  priority : nat;
  kind : BlockKind
}.

(** [StaticMemoryBlock(name=..., static_content=...)]; the library's default
    priority is 0. *)
Definition StaticMemoryBlock (n : string) (c : list Content) : MemoryBlock :=
  {| name := n; priority := 0; kind := Static c |}.

(* ------------------------------------------------------------------ *)
(** ** String helpers used by the workflow *)

(** Python's [\w] on the ASCII range: letters, digits and underscore.
    Strings are modelled as ASCII strings, so the Unicode word characters
    beyond that range, which [re] also keeps, do not arise here. *)
Definition is_word_char (c : ascii) : bool :=
  let n := nat_of_ascii c in
  (((48 <=? n) && (n <=? 57))          (* 0-9 *)
   || ((65 <=? n) && (n <=? 90))       (* A-Z *)
   || ((97 <=? n) && (n <=? 122))      (* a-z *)
   || (n =? 95))%nat.                  (* _ *)

(** The character class [[\w-]]. *)
Definition word_or_hyphen (c : ascii) : bool :=
  is_word_char c || (nat_of_ascii c =? 45)%nat.

(** [re.sub(r"[^\w-]", "_", file_path)]. *)
Fixpoint path_to_block_name (file_path : string) : string :=
  match file_path with
  | EmptyString => EmptyString
  | String c rest =>
      String (if word_or_hyphen c then c else "_"%char)
             (path_to_block_name rest)
  end.

(** [s.endswith(suffix)]. *)
Fixpoint endswith (s suffix : string) : bool :=
  String.eqb s suffix ||
  match s with
  | EmptyString => false
  | String _ rest => endswith rest suffix
  end.

(** [s.endswith((x1, ..., xn))]. *)
Definition endswith_any (s : string) (suffixes : list string) : bool :=
  existsb (endswith s) suffixes.

Definition is_image_path (p : string) : bool :=
  endswith_any p [".png"; ".jpg"; ".jpeg"].

Definition is_text_path (p : string) : bool :=
  endswith_any p [".txt"; ".md"; ".py"; ".ipynb"].

(* ------------------------------------------------------------------ *)
(** ** The [update_memory_context] step *)

(** [str(Path(p))] on POSIX, the form [ImageBlock]'s [path : FilePath] field
    stores a path in: [posixpath.splitroot] (exactly two leading slashes are
    kept, one or three and more become one), then the parts of
    [rel.split("/")] other than [""] and ["."] joined by ["/"], and ["."] for
    an empty result. *)
Fixpoint split_slash (s : string) : list string :=
  match s with
  | EmptyString => [EmptyString]
  | String c rest =>
      let parts := split_slash rest in
      if Ascii.eqb c "/"%char then EmptyString :: parts
      else match parts with
           | [] => [String c EmptyString]
           | h :: t => String c h :: t
           end
  end.

Definition splitroot (p : string) : string * string :=
  match p with
  | String c rest =>
      if Ascii.eqb c "/"%char then
        match rest with
        | String c2 rest2 =>
            if Ascii.eqb c2 "/"%char then
              match rest2 with
              | String c3 _ => if Ascii.eqb c3 "/"%char then ("/", rest) else ("//", rest2)
              | EmptyString => ("//", rest2)
              end
            else ("/", rest)
        | EmptyString => ("/", rest)
        end
      else ("", p)
  | EmptyString => ("", p)
  end.

Definition posix_path_str (p : string) : string :=
  let '(root, rel) := splitroot p in
  let parts := filter (fun x => negb (String.eqb x "") && negb (String.eqb x "."))
                      (split_slash rel) in
  let s := String.append root (String.concat "/" parts) in
  if String.eqb s "" then "." else s.

(** Exceptions the step can raise: [ValueError(f"Unsupported file: ...")];
    the pydantic [ValidationError] of [ImageBlock(path=...)], whose [FilePath]
    field requires an existing regular file; the [OSError] of
    [open(new_file_path, "r")]; the [UnicodeDecodeError] of [f.read()]. *)
Inductive StepError : Type :=
| UnsupportedFile (path : string)
| ImageValidationError (path : string)
| FileError (path : string)
| DecodeError (path : string).

(** What [open(p, "r")] followed by [f.read()] gives on a regular file: the
    text [read] returns, an [OSError] from [open] (e.g. permission denied), or
    a [UnicodeDecodeError] from [read]. *)
Inductive TextRead : Type :=
| Readable (text : string)
| Unopenable
| Undecodable.

(** What a path names: no regular file (missing, a directory, ...), on which
    both [FilePath] validation and [open] fail, or a regular file. *)
Inductive FileEntry : Type :=
| NoFile
| RegularFile (read : TextRead).

Definition FileSystem := string -> FileEntry.

(** [Path(p).is_file()], the check of pydantic's [FilePath]. *)
Definition is_regular_file (e : FileEntry) : bool :=
  match e with NoFile => false | RegularFile _ => true end.

Record ContextUpdateEvent : Type := mkUpdate {
  new_file_paths : list string;
  removed_file_paths : list string
}.

(** State after the step: [memory_blocks] is mutated in place by
    [list.append], so blocks appended before an exception stay. *)
Record StepOutcome : Type := mkOutcome {
  blocks_after : list MemoryBlock;
  raised : option StepError
}.

(** The first loop, [for new_file_path in ev.new_file_paths], against the
    names [current_block_names] computed once before it.  An image block
    holds its path in the [str(Path(p))] form; a text block holds what
    [f.read()] returned. *)
Fixpoint add_new_files (fs : FileSystem) (current_block_names : list string)
    (memory_blocks : list MemoryBlock) (paths : list string)
    : list MemoryBlock * option StepError :=
  match paths with
  | [] => (memory_blocks, None)
  | new_file_path :: rest =>
      if existsb (String.eqb new_file_path) current_block_names then
        add_new_files fs current_block_names memory_blocks rest
      else if is_image_path new_file_path then
        match fs new_file_path with
        | RegularFile _ =>
            add_new_files fs current_block_names
              (memory_blocks ++ [StaticMemoryBlock (path_to_block_name new_file_path)
                                                   [CImage (posix_path_str new_file_path)]])
              rest
        | NoFile => (memory_blocks, Some (ImageValidationError new_file_path))
        end
      else if is_text_path new_file_path then
        match fs new_file_path with
        | RegularFile (Readable text) =>
            add_new_files fs current_block_names
              (memory_blocks ++ [StaticMemoryBlock (path_to_block_name new_file_path)
                                                   [CText text]])
              rest
        | RegularFile Undecodable => (memory_blocks, Some (DecodeError new_file_path))
        | RegularFile Unopenable | NoFile => (memory_blocks, Some (FileError new_file_path))
        end
      else (memory_blocks, Some (UnsupportedFile new_file_path))
  end.

(** One iteration of the second loop: keep the blocks whose name differs. *)
Definition remove_block_named (named_block : string) (memory_blocks : list MemoryBlock)
    : list MemoryBlock :=
  filter (fun block => negb (String.eqb (name block) named_block)) memory_blocks.

(** The second loop, [for removed_file_path in ev.removed_file_paths]. *)
Fixpoint remove_files (memory_blocks : list MemoryBlock) (paths : list string)
    : list MemoryBlock :=
  match paths with
  | [] => memory_blocks
  | removed_file_path :: rest =>
      remove_files (remove_block_named (path_to_block_name removed_file_path)
                                       memory_blocks) rest
  end.

Definition update_memory_context (fs : FileSystem) (memory_blocks : list MemoryBlock)
    (ev : ContextUpdateEvent) : StepOutcome :=
  let current_block_names := map name memory_blocks in
  match add_new_files fs current_block_names memory_blocks (new_file_paths ev) with
  | (bs, Some e) => {| blocks_after := bs; raised := Some e |}
  | (bs, None) => {| blocks_after := remove_files bs (removed_file_paths ev);
                     raised := None |}
  end.

(* ------------------------------------------------------------------ *)
(** ** The [Memory] class *)

(** Modelled from the spec: the [insert_method] of [Memory] (section 4.4),
    either a separate leading system entry or merged into the most recent
    user entry ([insert_method="user"] in the notebook). *)
Inductive InsertMethod : Type := InsertSystem | InsertUser.

(** Modelled from the spec: the configuration of [Memory.from_defaults]
    ([token_limit], [chat_history_token_ratio] as the fraction
    [ratio_num / ratio_den], [token_flush_size], [insert_method]) together
    with the pluggable token estimator of section 4.1. *)
Record MemoryConfig : Type := mkConfig {
  token_limit : nat;
  ratio_num : nat;
  ratio_den : nat;
  token_flush_size : nat;
  insert_method : InsertMethod;
  estimate_tokens : ChatMessage -> nat;
  estimate_block_tokens : MemoryBlock -> nat
}.

(** Modelled from the spec: what a flush pass records about a turn it
    removes without an absorbing block, or because the turn alone exceeds
    the whole budget (section 4.4, [BudgetExceededFatal] of section 7). *)
Inductive FlushReport : Type :=
| ForcedDrop (msg : ChatMessage)
| DroppedNoAbsorber (msg : ChatMessage).

(** Modelled from the spec: the state owned by a [Memory] instance: its
    blocks, the live FIFO queue, the turns handed to absorbing blocks and
    the warnings recorded by flushes. *)
Record Memory : Type := mkMemory {
  memory_blocks : list MemoryBlock;
  queue : list ChatMessage;
  absorbed : list ChatMessage;
  reports : list FlushReport
}.

Definition set_memory_blocks (mem : Memory) (bs : list MemoryBlock) : Memory :=
  {| memory_blocks := bs; queue := queue mem; absorbed := absorbed mem;
     reports := reports mem |}.

Definition set_queue (mem : Memory) (q : list ChatMessage) : Memory :=
  {| memory_blocks := memory_blocks mem; queue := q; absorbed := absorbed mem;
     reports := reports mem |}.

Fixpoint queue_tokens (cfg : MemoryConfig) (q : list ChatMessage) : nat :=
  match q with
  | [] => 0
  | msg :: rest => estimate_tokens cfg msg + queue_tokens cfg rest
  end.

Fixpoint blocks_tokens (cfg : MemoryConfig) (bs : list MemoryBlock) : nat :=
  match bs with
  | [] => 0
  | b :: rest => estimate_block_tokens cfg b + blocks_tokens cfg rest
  end.

(** Modelled from the spec: the queue is above the flush target
    [token_limit * chat_history_token_ratio]. *)
Definition over_target (cfg : MemoryConfig) (q : list ChatMessage) : bool :=
  (token_limit cfg * ratio_num cfg <? ratio_den cfg * queue_tokens cfg q)%nat.

(** Blocks other than static ones absorb flushed turns (static blocks
    ignore them). *)
Definition has_absorbing_block (bs : list MemoryBlock) : bool :=
  existsb (fun b => match kind b with Dynamic _ => true | Static _ => false end) bs.

(** Modelled from the spec: removing the oldest turn during a flush.  A turn
    alone larger than [token_limit] is forcibly dropped and reported;
    otherwise it goes to an absorbing block, or is dropped with a warning
    when there is none. *)
Definition evict_oldest (cfg : MemoryConfig) (mem : Memory)
    (oldest : ChatMessage) (rest : list ChatMessage) : Memory :=
  if (token_limit cfg <? estimate_tokens cfg oldest)%nat then
    {| memory_blocks := memory_blocks mem; queue := rest; absorbed := absorbed mem;
       reports := reports mem ++ [ForcedDrop oldest] |}
  else if has_absorbing_block (memory_blocks mem) then
    {| memory_blocks := memory_blocks mem; queue := rest;
       absorbed := absorbed mem ++ [oldest]; reports := reports mem |}
  else
    {| memory_blocks := memory_blocks mem; queue := rest; absorbed := absorbed mem;
       reports := reports mem ++ [DroppedNoAbsorber oldest] |}.

(** Modelled from the spec: one step of a flush pass (section 4.4): while
    the queue is above the target, remove its oldest turn.  [None] means the
    pass has settled.  The precedence chosen between the two knobs is the
    one of the spec's scenario ("after settle, queue <= 700"): the ratio
    decides where the pass stops; [token_flush_size] only groups the turns
    handed to absorbing blocks and does not change which turns leave. *)
Definition flush_step (cfg : MemoryConfig) (mem : Memory) : option Memory :=
  if over_target cfg (queue mem) then
    match queue mem with
    | [] => None
    | oldest :: rest => Some (evict_oldest cfg mem oldest rest)
    end
  else None.

Fixpoint flush_iter (cfg : MemoryConfig) (fuel : nat) (mem : Memory) : Memory :=
  match fuel with
  | 0 => mem
  | S fuel' =>
      match flush_step cfg mem with
      | None => mem
      | Some mem' => flush_iter cfg fuel' mem'
      end
  end.

(** Modelled from the spec: a flush pass, at most one step per queued turn. *)
Definition flush (cfg : MemoryConfig) (mem : Memory) : Memory :=
  flush_iter cfg (length (queue mem)) mem.

Definition total_tokens (cfg : MemoryConfig) (mem : Memory) : nat :=
  queue_tokens cfg (queue mem) + blocks_tokens cfg (memory_blocks mem).

(** Modelled from the spec: [Memory.aput]: append the turn, then flush when
    queue plus blocks exceed [token_limit]. *)
Definition aput (cfg : MemoryConfig) (mem : Memory) (msg : ChatMessage) : Memory :=
  let mem' := set_queue mem (queue mem ++ [msg]) in
  if (token_limit cfg <? total_tokens cfg mem')%nat then flush cfg mem' else mem'.

Definition aput_all (cfg : MemoryConfig) (mem : Memory) (msgs : list ChatMessage) : Memory :=
  fold_left (aput cfg) msgs mem.

(* ------------------------------------------------------------------ *)
(** ** Context assembly: [Memory.aget] *)

(** Modelled from the spec: the typed failure of a dynamic block read. *)
Inductive ReadError : Type := BlockReadError (block_name : string).

Inductive ReadResult (A : Type) : Type :=
| ReadOk (a : A)
| ReadErr (e : ReadError).
Arguments ReadOk {A} a.
Arguments ReadErr {A} e.

(** Stable insertion by ascending priority: a block goes after the blocks
    of equal priority inserted before it. *)
Fixpoint insert_by_priority (b : MemoryBlock) (bs : list MemoryBlock) : list MemoryBlock :=
  match bs with
  | [] => [b]
  | b' :: rest =>
      if (priority b <? priority b')%nat then b :: bs
      else b' :: insert_by_priority b rest
  end.

(** Modelled from the spec: blocks in ascending priority, then insertion
    order (section 4.2). *)
Definition sort_blocks (bs : list MemoryBlock) : list MemoryBlock :=
  fold_left (fun acc b => insert_by_priority b acc) bs [].

Definition is_user (m : ChatMessage) : bool :=
  match role m with User => true | _ => false end.

(** Merge content into the first user entry of a reversed queue, i.e. the
    most recent user entry. *)
Fixpoint merge_last_user (parts : list Content) (rq : list ChatMessage)
    : option (list ChatMessage) :=
  match rq with
  | [] => None
  | m :: rest =>
      if is_user m then Some (mkMsg (role m) (blocks m ++ parts)%list :: rest)
      else option_map (cons m) (merge_last_user parts rest)
  end.

(** Modelled from the spec (section 4.5): render the block content into the
    queue, as a leading system entry or merged into the most recent user
    entry. *)
Definition assemble (im : InsertMethod) (parts : list Content) (q : list ChatMessage)
    : list ChatMessage :=
  match parts with
  | [] => q
  | _ =>
      match im with
      | InsertSystem => mkMsg System parts :: q
      | InsertUser =>
          match merge_last_user parts (rev q) with
          | Some rq => rev rq
          | None => mkMsg System parts :: q
          end
      end
  end.

Section Read.
(** The external retrieval / summarisation capability behind dynamic
    blocks: it sees and updates a world of its own and may fail. *)
Context {World : Type}.
Variable fetch : World -> string -> option (list Content) * World.

(** Modelled from the spec: [MemoryBlock.read()] (section 4.2). *)
Definition read_block (b : MemoryBlock) (w : World)
    : ReadResult (list Content) * World :=
  match kind b with
  | Static c => (ReadOk c, w)
  | Dynamic src =>
      match fetch w src with
      | (Some c, w') => (ReadOk c, w')
      | (None, w') => (ReadErr (BlockReadError (name b)), w')
      end
  end.

Fixpoint render_blocks (bs : list MemoryBlock) (w : World)
    : ReadResult (list Content) * World :=
  match bs with
  | [] => (ReadOk [], w)
  | b :: rest =>
      match read_block b w with
      | (ReadErr e, w') => (ReadErr e, w')
      | (ReadOk c, w') =>
          match render_blocks rest w' with
          | (ReadErr e, w'') => (ReadErr e, w'')
          | (ReadOk cs, w'') => (ReadOk (c ++ cs)%list, w'')
          end
      end
  end.

(** Modelled from the spec: [Memory.aget] / [read()] (section 4.4): render
    the blocks in priority order and the queue in chronological order; a
    failing block read aborts the call.  The stored state is returned
    as it was given: reading never flushes. *)
Definition aget (cfg : MemoryConfig) (mem : Memory) (w : World)
    : ReadResult (list ChatMessage) * Memory * World :=
  match render_blocks (sort_blocks (memory_blocks mem)) w with
  | (ReadOk parts, w') => (ReadOk (assemble (insert_method cfg) parts (queue mem)), mem, w')
  | (ReadErr e, w') => (ReadErr e, mem, w')
  end.
End Read.

(* ------------------------------------------------------------------ *)
(** ** The workflow run up to the [chat] step *)

Record InitEvent : Type := mkInit {
  user_msg : string;
  init_new_file_paths : list string;
  init_removed_file_paths : list string
}.

Definition is_nonempty {A : Type} (l : list A) : bool :=
  match l with [] => false | _ => true end.

(** The [init] step ([aput] of the user message), then
    [update_memory_context] when the event carries file paths.  The
    exception of [update_memory_context], if any, is returned next to the
    state the memory is left in.  The [chat] step then sends [aget] to the
    (external) LLM. *)
Definition run_until_chat (cfg : MemoryConfig) (fs : FileSystem) (mem : Memory)
    (ev : InitEvent) : Memory * option StepError :=
  let mem1 := aput cfg mem (mkMsg User [CText (user_msg ev)]) in
  if is_nonempty (init_new_file_paths ev) || is_nonempty (init_removed_file_paths ev) then
    let o := update_memory_context fs (memory_blocks mem1)
               (mkUpdate (init_new_file_paths ev) (init_removed_file_paths ev)) in
    (set_memory_blocks mem1 (blocks_after o), raised o)
  else (mem1, None).

Definition empty_memory : Memory :=
  {| memory_blocks := []; queue := []; absorbed := []; reports := [] |}.

(** The content a supported path is pinned with. *)
Definition pinned_content (fs : FileSystem) (p : string) : option Content :=
  if is_image_path p then
    match fs p with RegularFile _ => Some (CImage (posix_path_str p)) | NoFile => None end
  else if is_text_path p then
    match fs p with RegularFile (Readable text) => Some (CText text) | _ => None end
  else None.

Definition context_parts (ctx : list ChatMessage) : list Content :=
  flat_map blocks ctx.

(** A flush pass as a sequence of [n] flush steps. *)
Inductive flush_steps (cfg : MemoryConfig) : nat -> Memory -> Memory -> Prop :=
| flush_steps_done (mem : Memory) : flush_steps cfg 0 mem mem
| flush_steps_more (n : nat) (mem mem' mem'' : Memory) :
    flush_step cfg mem = Some mem' ->
    flush_steps cfg n mem' mem'' ->
    flush_steps cfg (S n) mem mem''.

Definition is_static (b : MemoryBlock) : bool :=
  match kind b with Static _ => true | Dynamic _ => false end.

(** Blocks a list of supported paths is pinned as (the paths already listed
    in [current_block_names] being skipped). *)
Definition pin_blocks (fs : FileSystem) (current_block_names : list string)
    (paths : list string) : list MemoryBlock :=
  flat_map (fun p =>
    if existsb (String.eqb p) current_block_names then []
    else match pinned_content fs p with
         | Some c => [StaticMemoryBlock (path_to_block_name p) [c]]
         | None => []
         end) paths.

(** Paths the first loop of [update_memory_context] gets past without an
    exception. *)
Definition path_accepted (fs : FileSystem) (current_block_names : list string)
    (p : string) : bool :=
  existsb (String.eqb p) current_block_names ||
  match pinned_content fs p with Some _ => true | None => false end.

(* ------------------------------------------------------------------ *)
(** ** Concrete inputs *)

Definition content_chars (c : Content) : nat :=
  match c with CText s => String.length s | CImage _ => 85 end.

(** A character-count token estimator (images at a fixed cost). *)
Definition char_estimate (m : ChatMessage) : nat :=
  fold_right (fun c acc => content_chars c + acc) 0 (blocks m).

Definition char_block_estimate (b : MemoryBlock) : nat :=
  match kind b with
  | Static c => fold_right (fun x acc => content_chars x + acc) 0 c
  | Dynamic _ => 0
  end.

(** The configuration of the notebook:
    [Memory.from_defaults(token_limit=60000, chat_history_token_ratio=0.7,
    token_flush_size=5000, insert_method="user")]. *)
Definition notebook_config : MemoryConfig :=
  mkConfig 60000 7 10 5000 InsertUser char_estimate char_block_estimate.

(** A small budget: 10 tokens, ratio 1/2. *)
Definition small_config : MemoryConfig :=
  mkConfig 10 1 2 5 InsertUser char_estimate char_block_estimate.

(** A working directory with three text files and two images (binary, so not
    decodable as text). *)
Definition example_fs : FileSystem :=
  fun p => if String.eqb p "./a.txt" then RegularFile (Readable "alpha")
           else if String.eqb p "file_a.txt" then RegularFile (Readable "contents of file a")
           else if String.eqb p "file_b.txt" then RegularFile (Readable "contents of file b")
           else if String.eqb p "./a.png" then RegularFile Undecodable
           else if String.eqb p "image.png" then RegularFile Undecodable
           else NoFile.

(** A dynamic capability over a call counter: its answer changes on every
    call. *)
Definition counter_fetch (n : nat) (_ : string) : option (list Content) * nat :=
  (Some [CText (String.string_of_list_ascii (repeat "x"%char n))], S n).

(* ================================================================== *)
(** * Proofs *)

(* ------------------------------------------------------------------ *)
(** ** Block names *)

Fixpoint all_chars (f : ascii -> bool) (s : string) : bool :=
  match s with
  | EmptyString => true
  | String c rest => f c && all_chars f rest
  end.

Lemma path_to_block_name_chars (p : string) :
  all_chars word_or_hyphen (path_to_block_name p) = true.
Proof.
  induction p as [|c p IH]; simpl; [reflexivity|].
  rewrite IH, andb_true_r.
  destruct (word_or_hyphen c) eqn:E; [exact E | reflexivity].
Qed.

Lemma endswith_all_chars (f : ascii -> bool) (s suffix : string) :
  endswith s suffix = true -> all_chars f s = true -> all_chars f suffix = true.
Proof.
  induction s as [|c s IH]; cbn [endswith all_chars]; intros Hend Hall.
  - rewrite orb_false_r in Hend. apply String.eqb_eq in Hend. subst. reflexivity.
  - apply orb_true_iff in Hend as [Heq|Hrest].
    + apply String.eqb_eq in Heq. subst. simpl. exact Hall.
    + apply andb_true_iff in Hall as [_ Hall]. exact (IH Hrest Hall).
Qed.

(** A supported path always ends in an extension with a dot, which no block
    name contains. *)
Lemma pinned_path_not_block_name (fs : FileSystem) (p q : string) (c : Content) :
  pinned_content fs p = Some c -> p <> path_to_block_name q.
Proof.
  intros Hpin Heq.
  assert (Hall : all_chars word_or_hyphen p = true)
    by (rewrite Heq; apply path_to_block_name_chars).
  unfold pinned_content, is_image_path, is_text_path, endswith_any in Hpin.
  simpl in Hpin.
  repeat match type of Hpin with
  | context [endswith p ?suf] =>
      let E := fresh "E" in
      destruct (endswith p suf) eqn:E;
      [ pose proof (endswith_all_chars _ _ _ E Hall) as Hs;
        vm_compute in Hs; discriminate Hs
      | simpl in Hpin ]
  end.
  discriminate Hpin.
Qed.

Lemma get_path_to_block_name (p : string) (i : nat) (c : ascii) :
  String.get i p = Some c ->
  String.get i (path_to_block_name p) = Some (if word_or_hyphen c then c else "_"%char).
Proof.
  revert i. induction p as [|c' p IH]; intros i H; [discriminate H|].
  destruct i as [|i]; simpl in *.
  - injection H as ->. reflexivity.
  - apply IH, H.
Qed.

Lemma length_path_to_block_name (p : string) :
  String.length (path_to_block_name p) = String.length p.
Proof. induction p as [|c p IH]; simpl; congruence. Qed.

(* ------------------------------------------------------------------ *)
(** ** The two loops of [update_memory_context] *)

Lemma In_remove_block_named (n : string) (bs : list MemoryBlock) (b : MemoryBlock) :
  In b (remove_block_named n bs) <-> In b bs /\ name b <> n.
Proof.
  unfold remove_block_named. rewrite filter_In.
  rewrite negb_true_iff, String.eqb_neq. tauto.
Qed.

Lemma In_remove_files (bs : list MemoryBlock) (ps : list string) (b : MemoryBlock) :
  In b (remove_files bs ps) <->
  In b bs /\ (forall p, In p ps -> name b <> path_to_block_name p).
Proof.
  revert bs. induction ps as [|p ps IH]; intros bs; simpl.
  - split; [intros H; split; [exact H | intros _ []] | tauto].
  - rewrite IH, In_remove_block_named. split.
    + intros [[Hb Hn] Hall]. split; [exact Hb|].
      intros q [<-|Hq]; [exact Hn | exact (Hall q Hq)].
    + intros [Hb Hall]. repeat split; [exact Hb | | ].
      * apply Hall. left. reflexivity.
      * intros q Hq. apply Hall. right. exact Hq.
Qed.

Lemma remove_block_named_idem (n : string) (bs : list MemoryBlock) :
  remove_block_named n (remove_block_named n bs) = remove_block_named n bs.
Proof.
  induction bs as [|b bs IH]; simpl; [reflexivity|].
  destruct (String.eqb (name b) n) eqn:E; simpl; [exact IH|].
  rewrite E. simpl. f_equal. exact IH.
Qed.

Lemma remove_block_named_absent (n : string) (bs : list MemoryBlock) :
  (forall b, In b bs -> name b <> n) -> remove_block_named n bs = bs.
Proof.
  induction bs as [|b bs IH]; intros H; simpl; [reflexivity|].
  destruct (String.eqb (name b) n) eqn:E.
  - apply String.eqb_eq in E. exfalso. exact (H b (or_introl eq_refl) E).
  - simpl. f_equal. apply IH. intros b' Hb'. apply H. right. exact Hb'.
Qed.

Lemma add_new_files_accepted (fs : FileSystem) (names : list string)
    (bs : list MemoryBlock) (ps : list string) :
  forallb (path_accepted fs names) ps = true ->
  add_new_files fs names bs ps = (bs ++ pin_blocks fs names ps, None).
Proof.
  revert bs. induction ps as [|p ps IH]; intros bs Hacc; simpl.
  - rewrite app_nil_r. reflexivity.
  - simpl in Hacc. apply andb_true_iff in Hacc as [Hp Hps].
    unfold path_accepted in Hp.
    destruct (existsb (String.eqb p) names) eqn:En.
    + simpl. apply IH, Hps.
    + simpl in Hp. unfold pinned_content in *.
      destruct (is_image_path p) eqn:Ei.
      * destruct (fs p) as [|r] eqn:Ef; [discriminate Hp|].
        simpl. rewrite IH by exact Hps. rewrite <- app_assoc. reflexivity.
      * destruct (is_text_path p) eqn:Et; [|discriminate Hp].
        destruct (fs p) as [|[text| |]] eqn:Ef; try discriminate Hp.
        simpl. rewrite IH by exact Hps. rewrite <- app_assoc. reflexivity.
Qed.

Lemma add_new_files_app (fs : FileSystem) (names : list string)
    (bs : list MemoryBlock) (pre post : list string) :
  add_new_files fs names bs (pre ++ post) =
  match add_new_files fs names bs pre with
  | (bs1, None) => add_new_files fs names bs1 post
  | (bs1, Some e) => (bs1, Some e)
  end.
Proof.
  revert bs. induction pre as [|p pre IH]; intros bs; simpl; [reflexivity|].
  destruct (existsb (String.eqb p) names); [apply IH|].
  destruct (is_image_path p); [destruct (fs p); [reflexivity | apply IH]|].
  destruct (is_text_path p); [|reflexivity].
  destruct (fs p) as [|[| |]]; try reflexivity. apply IH.
Qed.

(* ------------------------------------------------------------------ *)
(** ** Flush passes *)

Lemma flush_step_some (cfg : MemoryConfig) (mem mem' : Memory) :
  flush_step cfg mem = Some mem' ->
  over_target cfg (queue mem) = true /\
  (exists oldest, queue mem = oldest :: queue mem') /\
  memory_blocks mem' = memory_blocks mem.
Proof.
  unfold flush_step. destruct (over_target cfg (queue mem)) eqn:Ho; [|discriminate].
  destruct (queue mem) as [|oldest rest] eqn:Hq; [discriminate|].
  intros H. injection H as <-. split; [reflexivity|].
  unfold evict_oldest.
  destruct (token_limit cfg <? estimate_tokens cfg oldest)%nat;
    [|destruct (has_absorbing_block (memory_blocks mem))];
    simpl; split; eauto.
Qed.

Lemma flush_step_none (cfg : MemoryConfig) (mem : Memory) :
  flush_step cfg mem = None -> over_target cfg (queue mem) = false.
Proof.
  unfold flush_step, over_target.
  destruct (token_limit cfg * ratio_num cfg <? ratio_den cfg * queue_tokens cfg (queue mem))%nat
    eqn:Ho; [|reflexivity].
  destruct (queue mem) as [|oldest rest] eqn:Hq; [|discriminate].
  simpl in Ho. rewrite Nat.mul_0_r in Ho. apply Nat.ltb_lt in Ho. lia.
Qed.

Lemma settled_within_target (cfg : MemoryConfig) (q : list ChatMessage) :
  over_target cfg q = false ->
  ratio_den cfg * queue_tokens cfg q <= token_limit cfg * ratio_num cfg.
Proof. unfold over_target. intros H. apply Nat.ltb_ge in H. exact H. Qed.

Lemma flush_iter_spec (cfg : MemoryConfig) (n : nat) (mem : Memory) :
  length (queue mem) <= n ->
  flush_step cfg (flush_iter cfg n mem) = None /\
  memory_blocks (flush_iter cfg n mem) = memory_blocks mem /\
  (exists k, queue (flush_iter cfg n mem) = skipn k (queue mem) /\
             (forall j, j < k -> over_target cfg (skipn j (queue mem)) = true)) /\
  (exists m, flush_steps cfg m mem (flush_iter cfg n mem)).
Proof.
  revert mem. induction n as [|n IH]; intros mem Hlen; simpl.
  - destruct (queue mem) as [|oldest rest] eqn:Hq; [|simpl in Hlen; lia].
    assert (Hn : flush_step cfg mem = None).
    { unfold flush_step. rewrite Hq. destruct (over_target cfg []); reflexivity. }
    repeat split; [exact Hn | | exists 0; constructor].
    exists 0. split; [reflexivity | intros j Hj; lia].
  - destruct (flush_step cfg mem) as [mem'|] eqn:Hs.
    + destruct (flush_step_some _ _ _ Hs) as (Ho & (oldest & Hq) & Hb).
      assert (Hlen' : length (queue mem') <= n) by (rewrite Hq in Hlen; simpl in Hlen; lia).
      destruct (IH mem' Hlen') as (Hn & Hb' & (k & Hk & Hover) & (m & Hm)).
      repeat split; [exact Hn | congruence | | ].
      * exists (S k). rewrite Hq. split; [exact Hk|].
        intros [|j] Hj; simpl; [rewrite <- Hq; exact Ho|].
        apply Hover. lia.
      * exists (S m). econstructor; [exact Hs | exact Hm].
    + repeat split; [exact Hs | | exists 0; constructor].
      exists 0. split; [reflexivity | intros j Hj; lia].
Qed.

Lemma flush_spec (cfg : MemoryConfig) (mem : Memory) :
  flush_step cfg (flush cfg mem) = None /\
  memory_blocks (flush cfg mem) = memory_blocks mem /\
  (exists k, queue (flush cfg mem) = skipn k (queue mem) /\
             (forall j, j < k -> over_target cfg (skipn j (queue mem)) = true)) /\
  (exists m, flush_steps cfg m mem (flush cfg mem)).
Proof. apply flush_iter_spec. lia. Qed.

Lemma flush_steps_bound (cfg : MemoryConfig) (n : nat) (mem mem' : Memory) :
  flush_steps cfg n mem mem' -> n <= length (queue mem).
Proof.
  induction 1 as [mem|n mem mem' mem'' Hs _ IH]; [lia|].
  destruct (flush_step_some _ _ _ Hs) as (_ & (oldest & Hq) & _).
  rewrite Hq. simpl. lia.
Qed.

Lemma aput_blocks (cfg : MemoryConfig) (mem : Memory) (msg : ChatMessage) :
  memory_blocks (aput cfg mem msg) = memory_blocks mem.
Proof.
  unfold aput. destruct (token_limit cfg <? _)%nat; [|reflexivity].
  destruct (flush_spec cfg (set_queue mem (queue mem ++ [msg]))) as (_ & Hb & _).
  exact Hb.
Qed.

Lemma aput_queue_suffix (cfg : MemoryConfig) (mem : Memory) (msg : ChatMessage) :
  exists k, queue (aput cfg mem msg) = skipn k (queue mem ++ [msg]).
Proof.
  unfold aput. destruct (token_limit cfg <? _)%nat.
  - destruct (flush_spec cfg (set_queue mem (queue mem ++ [msg]))) as (_ & _ & (k & Hk & _) & _).
    exists k. exact Hk.
  - exists 0. reflexivity.
Qed.

Lemma In_insert_by_priority (b x : MemoryBlock) (bs : list MemoryBlock) :
  In x (insert_by_priority b bs) <-> b = x \/ In x bs.
Proof.
  induction bs as [|b' bs IH]; simpl; [tauto|].
  destruct (priority b <? priority b')%nat; simpl; [tauto|].
  rewrite IH. tauto.
Qed.

Lemma In_sort_blocks (bs : list MemoryBlock) (x : MemoryBlock) :
  In x (sort_blocks bs) -> In x bs.
Proof.
  unfold sort_blocks.
  assert (H : forall acc, In x (fold_left (fun acc b => insert_by_priority b acc) bs acc) ->
                          In x bs \/ In x acc).
  { induction bs as [|b bs IH]; simpl; intros acc Hx; [right; exact Hx|].
    destruct (IH _ Hx) as [Hin|Hin]; [tauto|].
    apply In_insert_by_priority in Hin. tauto. }
  intros Hx. destruct (H [] Hx) as [Hin|[]]. exact Hin.
Qed.

Lemma render_blocks_static {World : Type}
    (fetch : World -> string -> option (list Content) * World)
    (bs : list MemoryBlock) (w : World) :
  forallb is_static bs = true -> exists c, render_blocks fetch bs w = (ReadOk c, w).
Proof.
  induction bs as [|b bs IH]; simpl; intros H; [eauto|].
  apply andb_true_iff in H as [Hb Hbs].
  unfold read_block, is_static in *.
  destruct (kind b) as [c|src]; [|discriminate Hb].
  destruct (IH Hbs) as [cs Hcs]. rewrite Hcs. eauto.
Qed.

Lemma aput_within_limit (cfg : MemoryConfig) (mem : Memory) (msg : ChatMessage) :
  0 < ratio_den cfg -> ratio_num cfg <= ratio_den cfg ->
  queue_tokens cfg (queue (aput cfg mem msg)) <= token_limit cfg.
Proof.
  intros Hden Hratio. unfold aput.
  destruct (token_limit cfg <? total_tokens cfg (set_queue mem (queue mem ++ [msg])))%nat eqn:Ht.
  - destruct (flush_spec cfg (set_queue mem (queue mem ++ [msg]))) as (Hn & _).
    apply flush_step_none, settled_within_target in Hn.
    assert (Hle : token_limit cfg * ratio_num cfg <= token_limit cfg * ratio_den cfg)
      by (apply Nat.mul_le_mono_l; exact Hratio).
    nia.
  - apply Nat.ltb_ge in Ht. unfold total_tokens in Ht. simpl in *. lia.
Qed.

(* ------------------------------------------------------------------ *)
(** ** Claims about the [Memory] model *)

(** C1: for every sequence of appended turns, once each flush pass has
    settled the estimated size of the live queue is at most [token_limit]
    (for a ratio in [0, 1]); a turn larger than the whole budget is
    forcibly dropped by the pass, so it does not break the bound either. *)
Theorem queue_within_token_limit (cfg : MemoryConfig) (mem : Memory)
    (msgs : list ChatMessage)
    (Hden : 0 < ratio_den cfg) (Hratio : ratio_num cfg <= ratio_den cfg)
    (Hinit : queue_tokens cfg (queue mem) <= token_limit cfg) :
  queue_tokens cfg (queue (aput_all cfg mem msgs)) <= token_limit cfg.
Proof.
  unfold aput_all. revert mem Hinit.
  induction msgs as [|msg msgs IH]; intros mem Hinit; simpl; [exact Hinit|].
  apply IH. apply aput_within_limit; assumption.
Qed.

Lemma queue_within_token_limit_witness :
  0 < ratio_den small_config /\ ratio_num small_config <= ratio_den small_config /\
  queue_tokens small_config (queue empty_memory) <= token_limit small_config /\
  queue_tokens small_config
    (queue (aput_all small_config empty_memory
              [mkMsg User [CText "hello"]; mkMsg Assistant [CText "hi there!"];
               mkMsg User [CText "a much longer question"]]))
  <= token_limit small_config.
Proof.
  refine (conj _ (conj _ (conj _ _))); [vm_compute; lia .. |].
  apply queue_within_token_limit; vm_compute; lia.
Defined.

(** C4 (as stated, refuted): with [token_limit = 10], ratio [1/2] and a queue
    of two 10-token turns (twice the limit), one flush leaves an empty
    queue, below [ratio * limit = 5]: the result is not in [[5, 10]]. *)
Lemma flush_at_twice_limit_below_target :
  let mem := set_queue empty_memory
               [mkMsg User [CText "0123456789"]; mkMsg Assistant [CText "abcdefghij"]] in
  queue_tokens small_config (queue mem) = 2 * token_limit small_config /\
  ratio_den small_config * queue_tokens small_config (queue (flush small_config mem))
  < token_limit small_config * ratio_num small_config.
Proof.
  split; [vm_compute; reflexivity | apply Nat.ltb_lt; vm_compute; reflexivity].
Qed.

(** C4 (amended): a flush pass only evicts oldest turns, each one while the
    queue is still above [ratio * limit]; afterwards the queue is at most
    [ratio * limit] (it may be strictly below it). *)
Theorem flush_evicts_only_what_is_needed (cfg : MemoryConfig) (mem : Memory) :
  exists k,
    queue (flush cfg mem) = skipn k (queue mem) /\
    ratio_den cfg * queue_tokens cfg (queue (flush cfg mem))
      <= token_limit cfg * ratio_num cfg /\
    (forall j, j < k -> over_target cfg (skipn j (queue mem)) = true).
Proof.
  destruct (flush_spec cfg mem) as (Hn & _ & (k & Hk & Hover) & _).
  exists k. split; [exact Hk|]. split; [|exact Hover].
  apply settled_within_target, flush_step_none, Hn.
Qed.

(** C5: a flush pass terminates on every queue: it settles after at most
    one step per queued turn, no sequence of flush steps is longer than the
    queue, and an oldest turn larger than the whole budget is removed and
    reported by a step instead of blocking the pass. *)
Theorem flush_terminates (cfg : MemoryConfig) (mem : Memory) :
  flush_step cfg (flush cfg mem) = None /\
  (exists n, n <= length (queue mem) /\ flush_steps cfg n mem (flush cfg mem)) /\
  (forall n mem', flush_steps cfg n mem mem' -> n <= length (queue mem)) /\
  (forall oldest rest,
     queue mem = oldest :: rest ->
     over_target cfg (queue mem) = true ->
     token_limit cfg < estimate_tokens cfg oldest ->
     flush_step cfg mem =
       Some {| memory_blocks := memory_blocks mem; queue := rest;
               absorbed := absorbed mem; reports := reports mem ++ [ForcedDrop oldest] |}).
Proof.
  destruct (flush_spec cfg mem) as (Hn & _ & _ & (m & Hm)).
  split; [exact Hn|]. split; [exists m; split; [eapply flush_steps_bound; exact Hm | exact Hm]|].
  split; [intros n mem' H; eapply flush_steps_bound; exact H|].
  intros oldest rest Hq Ho Hbig.
  unfold flush_step. rewrite Ho, Hq. unfold evict_oldest.
  apply Nat.ltb_lt in Hbig. rewrite Hbig. reflexivity.
Qed.

(** C8: when every block is static, two [aget] calls with no write in
    between return the same assembled context, leave the stored state as it
    was, do not call the external capability, and do not fail. *)
Theorem aget_static_deterministic {World : Type}
    (fetch : World -> string -> option (list Content) * World)
    (cfg : MemoryConfig) (mem : Memory) (w : World)
    (Hstatic : forallb is_static (memory_blocks mem) = true) :
  let '(r1, mem1, w1) := aget fetch cfg mem w in
  let '(r2, mem2, w2) := aget fetch cfg mem1 w1 in
  r1 = r2 /\ mem1 = mem /\ mem2 = mem /\ w1 = w /\ (exists ctx, r1 = ReadOk ctx).
Proof.
  assert (Hs : forallb is_static (sort_blocks (memory_blocks mem)) = true).
  { apply forallb_forall. intros b Hb.
    apply In_sort_blocks in Hb. rewrite forallb_forall in Hstatic. auto. }
  destruct (render_blocks_static fetch _ w Hs) as [c Hc].
  unfold aget. rewrite Hc. rewrite Hc. eauto 10.
Qed.

Lemma aget_static_deterministic_witness :
  let mem := set_memory_blocks empty_memory
               [StaticMemoryBlock "__a_txt" [CText "alpha"];
                StaticMemoryBlock "image_png" [CImage "image.png"]] in
  forallb is_static (memory_blocks mem) = true /\
  (let '(r1, mem1, w1) := aget counter_fetch notebook_config mem 0 in
   let '(r2, mem2, w2) := aget counter_fetch notebook_config mem1 w1 in
   r1 = r2 /\ mem1 = mem /\ mem2 = mem /\ w1 = 0 /\ (exists ctx, r1 = ReadOk ctx)).
Proof.
  split; [reflexivity|].
  apply (aget_static_deterministic counter_fetch notebook_config _ 0).
  reflexivity.
Defined.

(* ------------------------------------------------------------------ *)
(** ** Workflow runs *)

Lemma memory_blocks_set (mem : Memory) (bs : list MemoryBlock) :
  memory_blocks (set_memory_blocks mem bs) = bs.
Proof. reflexivity. Qed.

Lemma run_until_chat_pin (cfg : MemoryConfig) (fs : FileSystem) (mem : Memory)
    (u p : string) (c : Content) :
  pinned_content fs p = Some c ->
  existsb (String.eqb p) (map name (memory_blocks mem)) = false ->
  run_until_chat cfg fs mem (mkInit u [p] []) =
  (set_memory_blocks (aput cfg mem (mkMsg User [CText u]))
     (memory_blocks mem ++ [StaticMemoryBlock (path_to_block_name p) [c]]), None).
Proof.
  intros Hpin Hnew. unfold run_until_chat, update_memory_context. simpl.
  rewrite aput_blocks, Hnew.
  unfold pinned_content in Hpin.
  destruct (is_image_path p).
  - destruct (fs p); [discriminate Hpin|]. injection Hpin as <-. reflexivity.
  - destruct (is_text_path p); [|discriminate Hpin].
    destruct (fs p) as [|[text| |]]; try discriminate Hpin.
    injection Hpin as <-. reflexivity.
Qed.

Lemma run_until_chat_unpin (cfg : MemoryConfig) (fs : FileSystem) (mem : Memory)
    (u p : string) :
  run_until_chat cfg fs mem (mkInit u [] [p]) =
  (set_memory_blocks (aput cfg mem (mkMsg User [CText u]))
     (remove_block_named (path_to_block_name p) (memory_blocks mem)), None).
Proof.
  unfold run_until_chat, update_memory_context. simpl.
  rewrite aput_blocks. reflexivity.
Qed.

Lemma In_context_parts (x : Content) (l : list ChatMessage) :
  In x (context_parts l) <-> exists m, In m l /\ In x (blocks m).
Proof. unfold context_parts. rewrite in_flat_map. reflexivity. Qed.

Lemma In_context_parts_rev (x : Content) (l : list ChatMessage) :
  In x (context_parts (rev l)) <-> In x (context_parts l).
Proof.
  rewrite !In_context_parts.
  split; intros (m & Hm & Hx); exists m; rewrite <- In_rev in *; auto.
Qed.

Lemma merge_last_user_parts (x : Content) (parts : list Content)
    (rq rq' : list ChatMessage) :
  merge_last_user parts rq = Some rq' ->
  (In x (context_parts rq') <-> In x parts \/ In x (context_parts rq)).
Proof.
  revert rq'. induction rq as [|m rq IH]; simpl; intros rq' H; [discriminate H|].
  unfold context_parts in *.
  destruct (is_user m).
  - injection H as <-. simpl. rewrite !in_app_iff. tauto.
  - destruct (merge_last_user parts rq) as [rq''|] eqn:E; [|discriminate H].
    simpl in H. injection H as <-. simpl. rewrite !in_app_iff, (IH rq'' eq_refl). tauto.
Qed.

Lemma assemble_parts (x : Content) (im : InsertMethod) (parts : list Content)
    (q : list ChatMessage) :
  parts <> [] ->
  (In x (context_parts (assemble im parts q)) <-> In x parts \/ In x (context_parts q)).
Proof.
  intros Hne. unfold assemble.
  destruct parts as [|p0 ps]; [contradiction|].
  destruct im.
  - unfold context_parts. simpl. rewrite in_app_iff. tauto.
  - destruct (merge_last_user (p0 :: ps) (rev q)) as [rq|] eqn:E.
    + rewrite In_context_parts_rev, (merge_last_user_parts x _ _ _ E), In_context_parts_rev.
      tauto.
    + unfold context_parts. simpl. rewrite in_app_iff. tauto.
Qed.

Lemma In_skipn_incl {A : Type} (k : nat) (l : list A) (x : A) :
  In x (skipn k l) -> In x l.
Proof.
  revert l. induction k as [|k IH]; intros [|y l]; simpl; auto.
Qed.

Lemma aput_queue_parts (cfg : MemoryConfig) (mem : Memory) (msg : ChatMessage)
    (x : Content) :
  In x (context_parts (queue (aput cfg mem msg))) ->
  In x (context_parts (queue mem)) \/ In x (blocks msg).
Proof.
  destruct (aput_queue_suffix cfg mem msg) as [k Hk]. rewrite Hk.
  rewrite !In_context_parts. intros (m & Hm & Hx).
  apply In_skipn_incl, in_app_iff in Hm as [Hm|[<-|[]]]; [left; eauto | right; exact Hx].
Qed.

(* ------------------------------------------------------------------ *)
(** ** Claims about [update_memory_context] *)

(** C2 (code defect): re-pinning a file whose block is already present is
    not rejected.  [update_memory_context] checks the raw path
    ["./a.txt"] against the block names, which are sanitised paths
    (["__a_txt"]), so the second request appends a second block with the
    same name. *)
Lemma repinning_file_duplicates_block_name :
  let o1 := update_memory_context example_fs [] (mkUpdate ["./a.txt"] []) in
  let o2 := update_memory_context example_fs (blocks_after o1) (mkUpdate ["./a.txt"] []) in
  raised o1 = None /\ raised o2 = None /\
  map name (blocks_after o1) = ["__a_txt"] /\
  map name (blocks_after o2) = ["__a_txt"; "__a_txt"].
Proof. vm_compute. repeat split. Qed.

(** C3 (as stated, refuted): a request pinning ["./a.png"] then the
    unsupported ["./b.exe"] fails with [UnsupportedFile], but the image
    block is already appended and the user message already queued. *)
Lemma unsupported_file_after_supported_mutates :
  let '(mem', e) := run_until_chat notebook_config example_fs empty_memory
                      (mkInit "pin these" ["./a.png"; "./b.exe"] []) in
  e = Some (UnsupportedFile "./b.exe") /\
  memory_blocks mem' = [StaticMemoryBlock "__a_png" [CImage "a.png"]] /\
  memory_blocks mem' <> memory_blocks empty_memory /\
  queue mem' <> queue empty_memory.
Proof.
  vm_compute. split; [reflexivity|]. split; [reflexivity|].
  split; intros H; discriminate H.
Qed.

(** C3 (amended): an unsupported path (not already a block name) makes the
    request fail with [UnsupportedFile] when the loop reaches it, provided
    every path before it is accepted (already a block name, an image path
    naming a regular file, or a text file that opens and decodes; a rejected
    earlier path raises its own exception first); the blocks pinned for the
    accepted paths before it stay appended, the paths after it and all
    removals are not processed, and the user message appended by [init]
    stays queued. *)
Theorem unsupported_file_keeps_earlier_pins (cfg : MemoryConfig) (fs : FileSystem)
    (mem : Memory) (msg p : string) (pre post rems : list string)
    (Hpre : forallb (path_accepted fs (map name (memory_blocks mem))) pre = true)
    (Hnew : existsb (String.eqb p) (map name (memory_blocks mem)) = false)
    (Himg : is_image_path p = false) (Htxt : is_text_path p = false) :
  run_until_chat cfg fs mem (mkInit msg (pre ++ p :: post) rems) =
  (set_memory_blocks (aput cfg mem (mkMsg User [CText msg]))
     (memory_blocks mem ++ pin_blocks fs (map name (memory_blocks mem)) pre),
   Some (UnsupportedFile p)).
Proof.
  unfold run_until_chat. simpl init_new_file_paths.
  replace (is_nonempty (pre ++ p :: post)) with true by (destruct pre; reflexivity).
  simpl orb. cbv zeta. unfold update_memory_context. simpl new_file_paths.
  rewrite aput_blocks, add_new_files_app, add_new_files_accepted by exact Hpre.
  simpl. rewrite Hnew, Himg, Htxt. reflexivity.
Qed.

Lemma unsupported_file_keeps_earlier_pins_witness :
  forallb (path_accepted example_fs (map name (memory_blocks empty_memory))) ["./a.png"] = true /\
  existsb (String.eqb "./b.exe") (map name (memory_blocks empty_memory)) = false /\
  is_image_path "./b.exe" = false /\ is_text_path "./b.exe" = false /\
  run_until_chat notebook_config example_fs empty_memory
    (mkInit "pin these" (["./a.png"] ++ "./b.exe" :: []) []) =
  (set_memory_blocks (aput notebook_config empty_memory (mkMsg User [CText "pin these"]))
     (memory_blocks empty_memory
      ++ pin_blocks example_fs (map name (memory_blocks empty_memory)) ["./a.png"]),
   Some (UnsupportedFile "./b.exe")).
Proof.
  refine (conj _ (conj _ (conj _ (conj _ _)))); [vm_compute; reflexivity .. |].
  apply unsupported_file_keeps_earlier_pins; vm_compute; reflexivity.
Defined.

(** C6: unpinning a path whose block name is absent leaves the block list
    as it is, and repeating any unpin request changes nothing more. *)
Theorem remove_absent_block_noop (fs : FileSystem) (bs : list MemoryBlock) (p : string)
    (Habsent : forall b, In b bs -> name b <> path_to_block_name p) :
  update_memory_context fs bs (mkUpdate [] [p]) = mkOutcome bs None /\
  (forall bs',
     update_memory_context fs (blocks_after (update_memory_context fs bs' (mkUpdate [] [p])))
       (mkUpdate [] [p])
     = update_memory_context fs bs' (mkUpdate [] [p])).
Proof.
  unfold update_memory_context. simpl. split.
  - rewrite remove_block_named_absent by exact Habsent. reflexivity.
  - intros bs'. rewrite remove_block_named_idem. reflexivity.
Qed.

Lemma remove_absent_block_noop_witness :
  let bs := [StaticMemoryBlock "__b_txt" [CText "beta"]] in
  (forall b, In b bs -> name b <> path_to_block_name "./a.txt") /\
  update_memory_context example_fs bs (mkUpdate [] ["./a.txt"]) = mkOutcome bs None /\
  (forall bs',
     update_memory_context example_fs
       (blocks_after (update_memory_context example_fs bs' (mkUpdate [] ["./a.txt"])))
       (mkUpdate [] ["./a.txt"])
     = update_memory_context example_fs bs' (mkUpdate [] ["./a.txt"])).
Proof.
  cbv zeta.
  assert (H : forall b, In b [StaticMemoryBlock "__b_txt" [CText "beta"]] ->
                        name b <> path_to_block_name "./a.txt").
  { intros b [<-|[]] E. vm_compute in E. discriminate E. }
  split; [exact H|].
  apply (remove_absent_block_noop example_fs _ "./a.txt" H).
Defined.

(** C9: block names are the paths with every character outside [[\w-]]
    replaced by ['_'] (same length, character by character); two distinct
    paths such as ["./a.txt"] and ["__a_txt"] share a block name, and
    unpinning either one removes every block carrying that name,
    including the blocks pinned under the other path. *)
Theorem block_name_collision_unpins_both (fs : FileSystem) (bs : list MemoryBlock)
    (p q : string) (Hsame : path_to_block_name p = path_to_block_name q) :
  path_to_block_name "./a.txt" = path_to_block_name "__a_txt" /\
  "./a.txt" <> "__a_txt" /\
  String.length (path_to_block_name p) = String.length p /\
  (forall i c, String.get i p = Some c ->
     String.get i (path_to_block_name p) = Some (if word_or_hyphen c then c else "_"%char)) /\
  update_memory_context fs bs (mkUpdate [] [q]) =
    mkOutcome (remove_block_named (path_to_block_name p) bs) None /\
  (forall b, In b (blocks_after (update_memory_context fs bs (mkUpdate [] [q]))) <->
             In b bs /\ name b <> path_to_block_name p).
Proof.
  assert (Hu : update_memory_context fs bs (mkUpdate [] [q]) =
               mkOutcome (remove_block_named (path_to_block_name p) bs) None).
  { unfold update_memory_context. simpl. rewrite Hsame. reflexivity. }
  split; [vm_compute; reflexivity|].
  split; [intros E; discriminate E|].
  split; [apply length_path_to_block_name|].
  split; [apply get_path_to_block_name|].
  split; [exact Hu|].
  intros b. rewrite Hu. simpl. apply In_remove_block_named.
Qed.

Lemma block_name_collision_unpins_both_witness :
  let bs := blocks_after (update_memory_context example_fs [] (mkUpdate ["./a.txt"] [])) in
  path_to_block_name "./a.txt" = path_to_block_name "__a_txt" /\
  (path_to_block_name "./a.txt" = path_to_block_name "__a_txt" /\
   "./a.txt" <> "__a_txt" /\
   String.length (path_to_block_name "./a.txt") = String.length "./a.txt" /\
   (forall i c, String.get i "./a.txt" = Some c ->
      String.get i (path_to_block_name "./a.txt") =
        Some (if word_or_hyphen c then c else "_"%char)) /\
   update_memory_context example_fs bs (mkUpdate [] ["__a_txt"]) =
     mkOutcome (remove_block_named (path_to_block_name "./a.txt") bs) None /\
   (forall b, In b (blocks_after (update_memory_context example_fs bs (mkUpdate [] ["__a_txt"]))) <->
              In b bs /\ name b <> path_to_block_name "./a.txt")).
Proof.
  cbv zeta. split; [vm_compute; reflexivity|].
  apply block_name_collision_unpins_both. vm_compute. reflexivity.
Defined.

(** C10: within one request all additions run before all removals: a path
    listed both to pin and to unpin has no block afterwards when the
    request completes. *)
Theorem additions_before_removals (fs : FileSystem) (bs : list MemoryBlock)
    (news rems : list string) (p : string)
    (Hnew : In p news) (Hrem : In p rems)
    (Hok : raised (update_memory_context fs bs (mkUpdate news rems)) = None) :
  forall b, In b (blocks_after (update_memory_context fs bs (mkUpdate news rems))) ->
            name b <> path_to_block_name p.
Proof.
  unfold update_memory_context in *. simpl in *.
  destruct (add_new_files fs (map name bs) bs news) as [bs' [e|]]; [discriminate Hok|].
  simpl. intros b Hb. apply In_remove_files in Hb as [_ Hall]. exact (Hall p Hrem).
Qed.

Lemma additions_before_removals_witness :
  In "./a.png" ["./a.png"] /\ In "./a.png" ["./a.png"] /\
  raised (update_memory_context example_fs [] (mkUpdate ["./a.png"] ["./a.png"])) = None /\
  (forall b, In b (blocks_after (update_memory_context example_fs []
                                   (mkUpdate ["./a.png"] ["./a.png"]))) ->
             name b <> path_to_block_name "./a.png").
Proof.
  assert (Hin : In "./a.png" ["./a.png"]) by (simpl; left; reflexivity).
  assert (Hok : raised (update_memory_context example_fs []
                          (mkUpdate ["./a.png"] ["./a.png"])) = None)
    by (vm_compute; reflexivity).
  refine (conj Hin (conj Hin (conj Hok _))).
  exact (additions_before_removals example_fs [] ["./a.png"] ["./a.png"] "./a.png" Hin Hin Hok).
Defined.

(** C7: starting with no blocks, pinning file [pa] ("file_a"), then file
    [pb] ("file_b"), then unpinning [pa] leaves a context (as assembled by
    [aget]) that contains the content of [pb] and not the content of [pa],
    when both files can be pinned (an image path naming a regular file, or a
    text file that opens and decodes), have distinct block names and
    distinct contents, and the conversation itself never carried [pa]'s
    content. *)
Theorem pin_pin_unpin_context {World : Type}
    (fetch : World -> string -> option (list Content) * World) (w : World)
    (cfg : MemoryConfig) (fs : FileSystem) (mem0 : Memory)
    (u1 u2 u3 pa pb : string) (ca cb : Content)
    (Hb0 : memory_blocks mem0 = [])
    (Hpa : pinned_content fs pa = Some ca) (Hpb : pinned_content fs pb = Some cb)
    (Hc : ca <> cb) (Hn : path_to_block_name pa <> path_to_block_name pb)
    (Hq0 : ~ In ca (context_parts (queue mem0)))
    (Hu1 : CText u1 <> ca) (Hu2 : CText u2 <> ca) (Hu3 : CText u3 <> ca) :
  let '(mem1, e1) := run_until_chat cfg fs mem0 (mkInit u1 [pa] []) in
  let '(mem2, e2) := run_until_chat cfg fs mem1 (mkInit u2 [pb] []) in
  let '(mem3, e3) := run_until_chat cfg fs mem2 (mkInit u3 [] [pa]) in
  e1 = None /\ e2 = None /\ e3 = None /\
  match aget fetch cfg mem3 w with
  | (ReadOk ctx, _, _) => In cb (context_parts ctx) /\ ~ In ca (context_parts ctx)
  | (ReadErr _, _, _) => False
  end.
Proof.
  rewrite (run_until_chat_pin cfg fs mem0 u1 pa ca Hpa) by (rewrite Hb0; reflexivity).
  set (mem1 := set_memory_blocks (aput cfg mem0 (mkMsg User [CText u1]))
                 (memory_blocks mem0 ++ [StaticMemoryBlock (path_to_block_name pa) [ca]])).
  assert (Hnew2 : existsb (String.eqb pb) (map name (memory_blocks mem1)) = false).
  { subst mem1. rewrite memory_blocks_set, Hb0. simpl.
    rewrite orb_false_r. apply String.eqb_neq.
    exact (pinned_path_not_block_name fs pb pa cb Hpb). }
  rewrite (run_until_chat_pin cfg fs mem1 u2 pb cb Hpb Hnew2).
  set (mem2 := set_memory_blocks (aput cfg mem1 (mkMsg User [CText u2]))
                 (memory_blocks mem1 ++ [StaticMemoryBlock (path_to_block_name pb) [cb]])).
  rewrite (run_until_chat_unpin cfg fs mem2 u3 pa).
  set (mem3 := set_memory_blocks (aput cfg mem2 (mkMsg User [CText u3]))
                 (remove_block_named (path_to_block_name pa) (memory_blocks mem2))).
  assert (Hb3 : memory_blocks mem3 = [StaticMemoryBlock (path_to_block_name pb) [cb]]).
  { subst mem3 mem2 mem1. rewrite !memory_blocks_set, Hb0.
    simpl. unfold remove_block_named. simpl.
    rewrite String.eqb_refl. simpl.
    replace (String.eqb (path_to_block_name pb) (path_to_block_name pa)) with false
      by (symmetry; apply String.eqb_neq; congruence).
    reflexivity. }
  assert (Hq3 : forall x, In x (context_parts (queue mem3)) ->
                          In x (context_parts (queue mem0)) \/
                          x = CText u1 \/ x = CText u2 \/ x = CText u3).
  { intros x Hx. subst mem3. simpl in Hx.
    apply aput_queue_parts in Hx as [Hx|[<-|[]]]; [|tauto].
    subst mem2. simpl in Hx.
    apply aput_queue_parts in Hx as [Hx|[<-|[]]]; [|tauto].
    subst mem1. simpl in Hx.
    apply aput_queue_parts in Hx as [Hx|[<-|[]]]; tauto. }
  assert (Hr : render_blocks fetch (sort_blocks (memory_blocks mem3)) w = (ReadOk [cb], w))
    by (rewrite Hb3; reflexivity).
  cbv zeta. repeat split.
  unfold aget. rewrite Hr. cbv beta iota.
  split.
  - apply assemble_parts; [discriminate|]. left. left. reflexivity.
  - intros Hin. apply assemble_parts in Hin; [|discriminate].
    destruct Hin as [[Heq|[]]|Hin]; [congruence|].
    destruct (Hq3 ca Hin) as [H|[H|[H|H]]]; [contradiction | congruence ..].
Qed.

Lemma pin_pin_unpin_context_witness :
  memory_blocks empty_memory = [] /\
  pinned_content example_fs "file_a.txt" = Some (CText "contents of file a") /\
  pinned_content example_fs "file_b.txt" = Some (CText "contents of file b") /\
  CText "contents of file a" <> CText "contents of file b" /\
  path_to_block_name "file_a.txt" <> path_to_block_name "file_b.txt" /\
  ~ In (CText "contents of file a") (context_parts (queue empty_memory)) /\
  CText "pin a" <> CText "contents of file a" /\
  CText "pin b" <> CText "contents of file a" /\
  CText "unpin a" <> CText "contents of file a" /\
  (let '(mem1, e1) := run_until_chat notebook_config example_fs empty_memory
                        (mkInit "pin a" ["file_a.txt"] []) in
   let '(mem2, e2) := run_until_chat notebook_config example_fs mem1
                        (mkInit "pin b" ["file_b.txt"] []) in
   let '(mem3, e3) := run_until_chat notebook_config example_fs mem2
                        (mkInit "unpin a" [] ["file_a.txt"]) in
   e1 = None /\ e2 = None /\ e3 = None /\
   match aget counter_fetch notebook_config mem3 0 with
   | (ReadOk ctx, _, _) =>
       In (CText "contents of file b") (context_parts ctx) /\
       ~ In (CText "contents of file a") (context_parts ctx)
   | (ReadErr _, _, _) => False
   end).
Proof.
  assert (Hb0 : memory_blocks empty_memory = []) by reflexivity.
  assert (Hpa : pinned_content example_fs "file_a.txt" = Some (CText "contents of file a"))
    by (vm_compute; reflexivity).
  assert (Hpb : pinned_content example_fs "file_b.txt" = Some (CText "contents of file b"))
    by (vm_compute; reflexivity).
  assert (Hc : CText "contents of file a" <> CText "contents of file b")
    by (intros E; vm_compute in E; discriminate E).
  assert (Hn : path_to_block_name "file_a.txt" <> path_to_block_name "file_b.txt")
    by (intros E; vm_compute in E; discriminate E).
  assert (Hq0 : ~ In (CText "contents of file a") (context_parts (queue empty_memory)))
    by (vm_compute; intros []).
  assert (Hu1 : CText "pin a" <> CText "contents of file a")
    by (intros E; vm_compute in E; discriminate E).
  assert (Hu2 : CText "pin b" <> CText "contents of file a")
    by (intros E; vm_compute in E; discriminate E).
  assert (Hu3 : CText "unpin a" <> CText "contents of file a")
    by (intros E; vm_compute in E; discriminate E).
  repeat (split; [assumption|]).
  exact (pin_pin_unpin_context counter_fetch 0 notebook_config example_fs empty_memory
           "pin a" "pin b" "unpin a" "file_a.txt" "file_b.txt"
           (CText "contents of file a") (CText "contents of file b")
           Hb0 Hpa Hpb Hc Hn Hq0 Hu1 Hu2 Hu3).
Defined.

(* ------------------------------------------------------------------ *)
(** ** Further properties of the workflow steps *)

Lemma add_new_files_ok_iff (fs : FileSystem) (names : list string)
    (bs : list MemoryBlock) (ps : list string) :
  snd (add_new_files fs names bs ps) = None <->
  forallb (path_accepted fs names) ps = true.
Proof.
  revert bs. induction ps as [|p ps IH]; intros bs; simpl; [tauto|].
  unfold path_accepted at 1, pinned_content.
  destruct (existsb (String.eqb p) names); simpl; [apply IH|].
  destruct (is_image_path p).
  - destruct (fs p); simpl; [split; discriminate | apply IH].
  - destruct (is_text_path p); [|simpl; split; discriminate].
    destruct (fs p) as [|[| |]]; simpl; try (split; discriminate). apply IH.
Qed.

Lemma add_new_files_cons_pinned (fs : FileSystem) (names : list string)
    (bs : list MemoryBlock) (p : string) (ps : list string) (c : Content) :
  existsb (String.eqb p) names = false -> pinned_content fs p = Some c ->
  add_new_files fs names bs (p :: ps) =
  add_new_files fs names (bs ++ [StaticMemoryBlock (path_to_block_name p) [c]]) ps.
Proof.
  intros En Hp. simpl. rewrite En. unfold pinned_content in Hp.
  destruct (is_image_path p).
  - destruct (fs p); [discriminate Hp|]. injection Hp as <-. reflexivity.
  - destruct (is_text_path p); [|discriminate Hp].
    destruct (fs p) as [|[t| |]]; try discriminate Hp. injection Hp as <-. reflexivity.
Qed.

Lemma add_new_files_cons_rejected (fs : FileSystem) (names : list string)
    (bs : list MemoryBlock) (p : string) (ps : list string) :
  existsb (String.eqb p) names = false -> pinned_content fs p = None ->
  exists e, add_new_files fs names bs (p :: ps) = (bs, Some e) /\
    ((e = ImageValidationError p /\ is_image_path p = true /\
      is_regular_file (fs p) = false) \/
     (e = FileError p /\ is_image_path p = false /\ is_text_path p = true /\
      (fs p = NoFile \/ fs p = RegularFile Unopenable)) \/
     (e = DecodeError p /\ is_image_path p = false /\ is_text_path p = true /\
      fs p = RegularFile Undecodable) \/
     (e = UnsupportedFile p /\ is_image_path p = false /\ is_text_path p = false)).
Proof.
  intros En Hp. simpl. rewrite En. unfold pinned_content in Hp.
  destruct (is_image_path p) eqn:Ei.
  - destruct (fs p) eqn:Ef; [|discriminate Hp].
    eexists. split; [reflexivity|]. left. auto.
  - destruct (is_text_path p) eqn:Et.
    + destruct (fs p) as [|[t| |]] eqn:Ef; try discriminate Hp;
        eexists; (split; [reflexivity|]).
      * right. left. auto.
      * right. left. auto.
      * right. right. left. auto.
    + eexists. split; [reflexivity|]. right. right. right. auto.
Qed.

Lemma add_new_files_error (fs : FileSystem) (names : list string)
    (bs : list MemoryBlock) (ps : list string) (e : StepError) :
  snd (add_new_files fs names bs ps) = Some e ->
  exists pre p post,
    ps = pre ++ p :: post /\
    forallb (path_accepted fs names) pre = true /\
    existsb (String.eqb p) names = false /\
    ((e = ImageValidationError p /\ is_image_path p = true /\
      is_regular_file (fs p) = false) \/
     (e = FileError p /\ is_image_path p = false /\ is_text_path p = true /\
      (fs p = NoFile \/ fs p = RegularFile Unopenable)) \/
     (e = DecodeError p /\ is_image_path p = false /\ is_text_path p = true /\
      fs p = RegularFile Undecodable) \/
     (e = UnsupportedFile p /\ is_image_path p = false /\ is_text_path p = false)) /\
    fst (add_new_files fs names bs ps) = bs ++ pin_blocks fs names pre.
Proof.
  revert bs. induction ps as [|p ps IH]; intros bs H; [discriminate H|].
  destruct (existsb (String.eqb p) names) eqn:En.
  - simpl in H |- *. rewrite En in H |- *.
    destruct (IH bs H) as (pre & q & post & -> & Hpre & R).
    exists (p :: pre), q, post. split; [reflexivity|].
    split; [simpl; unfold path_accepted; rewrite En; exact Hpre|].
    unfold pin_blocks. cbn [flat_map]. rewrite En. exact R.
  - destruct (pinned_content fs p) as [c|] eqn:Ep.
    + rewrite (add_new_files_cons_pinned _ _ _ _ _ _ En Ep) in H |- *.
      destruct (IH _ H) as (pre & q & post & -> & Hpre & Hq & Hcase & Hf).
      exists (p :: pre), q, post. split; [reflexivity|].
      split; [simpl; unfold path_accepted; rewrite En, Ep; exact Hpre|].
      split; [exact Hq|]. split; [exact Hcase|].
      rewrite Hf. unfold pin_blocks. cbn [flat_map]. rewrite En, Ep.
      symmetry. apply app_assoc.
    + destruct (add_new_files_cons_rejected fs names bs p ps En Ep) as (e' & Ha & Hcase).
      rewrite Ha in H |- *. simpl in H. injection H as He. subst e'.
      exists [], p, ps. simpl. rewrite app_nil_r.
      split; [reflexivity|]. split; [reflexivity|]. split; [exact En|].
      split; [exact Hcase | reflexivity].
Qed.

Lemma filter_filter_and {A : Type} (f g : A -> bool) (l : list A) :
  filter f (filter g l) = filter (fun x => g x && f x) l.
Proof.
  induction l as [|x l IH]; simpl; [reflexivity|].
  destruct (g x); simpl; [destruct (f x); simpl; congruence | exact IH].
Qed.

Lemma remove_files_filter (bs : list MemoryBlock) (rems : list string) :
  remove_files bs rems =
  filter (fun b => forallb (fun p => negb (String.eqb (name b) (path_to_block_name p))) rems)
         bs.
Proof.
  revert bs. induction rems as [|p rems IH]; intros bs; simpl.
  - induction bs as [|b bs IHb]; simpl; congruence.
  - rewrite IH. unfold remove_block_named. rewrite filter_filter_and. reflexivity.
Qed.

Lemma pinned_path_not_sanitised (fs : FileSystem) (p : string) (c : Content) :
  pinned_content fs p = Some c -> all_chars word_or_hyphen p = false.
Proof.
  intros Hpin. destruct (all_chars word_or_hyphen p) eqn:Hall; [|reflexivity].
  exfalso.
  unfold pinned_content, is_image_path, is_text_path, endswith_any in Hpin.
  simpl in Hpin.
  repeat match type of Hpin with
  | context [endswith p ?suf] =>
      let E := fresh "E" in
      destruct (endswith p suf) eqn:E;
      [ pose proof (endswith_all_chars _ _ _ E Hall) as Hs;
        vm_compute in Hs; discriminate Hs
      | simpl in Hpin ]
  end.
  discriminate Hpin.
Qed.

Lemma endswith_iff (s suffix : string) :
  endswith s suffix = true <-> exists pre, s = String.append pre suffix.
Proof.
  induction s as [|c s IH]; cbn [endswith].
  - rewrite orb_false_r, String.eqb_eq. split.
    + intros <-. exists EmptyString. reflexivity.
    + intros [[|c pre] H]; [exact H | discriminate H].
  - rewrite orb_true_iff, String.eqb_eq, IH. split.
    + intros [<-|[pre ->]]; [exists EmptyString; reflexivity|].
      exists (String c pre). reflexivity.
    + intros [[|c' pre] H]; [left; simpl in H; exact H|].
      injection H as -> ->. right. exists pre. reflexivity.
Qed.

(** A request to [update_memory_context] completes without an exception
    exactly when every path of its new-file list is either already a block
    name or a pinnable file: an image path naming a regular file (checked
    by [ImageBlock]'s [FilePath] field), or a text path whose file opens and
    decodes. *)
Theorem update_completes_iff_paths_accepted (fs : FileSystem) (bs : list MemoryBlock)
    (ev : ContextUpdateEvent) :
  raised (update_memory_context fs bs ev) = None <->
  forallb (path_accepted fs (map name bs)) (new_file_paths ev) = true.
Proof.
  rewrite <- (add_new_files_ok_iff fs (map name bs) bs).
  unfold update_memory_context.
  destruct (add_new_files fs (map name bs) bs (new_file_paths ev)) as [bs' [e|]];
    simpl; split; congruence.
Qed.

(** When the request completes, the resulting block list is the old list
    followed by one block per newly pinned path (in request order), from
    which every block whose name is the block name of a removed path is
    then filtered out. *)
Theorem update_success_result (fs : FileSystem) (bs : list MemoryBlock)
    (ev : ContextUpdateEvent)
    (Hacc : forallb (path_accepted fs (map name bs)) (new_file_paths ev) = true) :
  update_memory_context fs bs ev =
  mkOutcome
    (filter (fun b => forallb (fun p => negb (String.eqb (name b) (path_to_block_name p)))
                              (removed_file_paths ev))
            (bs ++ pin_blocks fs (map name bs) (new_file_paths ev)))
    None.
Proof.
  unfold update_memory_context.
  rewrite add_new_files_accepted by exact Hacc.
  rewrite remove_files_filter. reflexivity.
Qed.

Lemma update_success_result_witness :
  forallb (path_accepted example_fs (map name [StaticMemoryBlock "__a_txt" [CText "alpha"]]))
          ["image.png"; "file_b.txt"] = true /\
  update_memory_context example_fs [StaticMemoryBlock "__a_txt" [CText "alpha"]]
    (mkUpdate ["image.png"; "file_b.txt"] ["./a.txt"]) =
  mkOutcome
    (filter (fun b => forallb (fun p => negb (String.eqb (name b) (path_to_block_name p)))
                              ["./a.txt"])
            ([StaticMemoryBlock "__a_txt" [CText "alpha"]]
             ++ pin_blocks example_fs (map name [StaticMemoryBlock "__a_txt" [CText "alpha"]])
                  ["image.png"; "file_b.txt"]))
    None.
Proof.
  assert (H : forallb (path_accepted example_fs
                         (map name [StaticMemoryBlock "__a_txt" [CText "alpha"]]))
                      ["image.png"; "file_b.txt"] = true) by (vm_compute; reflexivity).
  split; [exact H|].
  exact (update_success_result example_fs _ (mkUpdate ["image.png"; "file_b.txt"] ["./a.txt"]) H).
Defined.



(** Only the set of removed paths matters: two removal lists with the same
    elements (in any order, with any repetitions) give the same outcome. *)
Theorem removed_paths_order_irrelevant (fs : FileSystem) (bs : list MemoryBlock)
    (news rems1 rems2 : list string)
    (H12 : incl rems1 rems2) (H21 : incl rems2 rems1) :
  update_memory_context fs bs (mkUpdate news rems1) =
  update_memory_context fs bs (mkUpdate news rems2).
Proof.
  unfold update_memory_context. simpl.
  destruct (add_new_files fs (map name bs) bs news) as [bs' [e|]]; [reflexivity|].
  rewrite !remove_files_filter. f_equal. apply filter_ext. intros b.
  set (f := fun p => negb (String.eqb (name b) (path_to_block_name p))).
  assert (Hsub : forall l1 l2, incl l1 l2 -> forallb f l2 = true -> forallb f l1 = true).
  { intros l1 l2 Hi H. rewrite forallb_forall in *. intros x Hx. apply H, Hi, Hx. }
  destruct (forallb f rems1) eqn:E1, (forallb f rems2) eqn:E2; try reflexivity.
  - rewrite (Hsub _ _ H21 E1) in E2. discriminate E2.
  - rewrite (Hsub _ _ H12 E2) in E1. discriminate E1.
Qed.

Lemma removed_paths_order_irrelevant_witness :
  incl ["./a.txt"; "image.png"; "./a.txt"] ["image.png"; "./a.txt"] /\
  incl ["image.png"; "./a.txt"] ["./a.txt"; "image.png"; "./a.txt"] /\
  update_memory_context example_fs [] (mkUpdate ["./a.txt"] ["./a.txt"; "image.png"; "./a.txt"]) =
  update_memory_context example_fs [] (mkUpdate ["./a.txt"] ["image.png"; "./a.txt"]).
Proof.
  assert (H1 : incl ["./a.txt"; "image.png"; "./a.txt"] ["image.png"; "./a.txt"])
    by (intros x Hx; simpl in *; tauto).
  assert (H2 : incl ["image.png"; "./a.txt"] ["./a.txt"; "image.png"; "./a.txt"])
    by (intros x Hx; simpl in *; tauto).
  split; [exact H1|]. split; [exact H2|].
  exact (removed_paths_order_irrelevant example_fs [] ["./a.txt"] _ _ H1 H2).
Defined.

(** Block names are fixed points of the sanitiser, so unpinning by a block
    name removes exactly what unpinning the original path removes. *)
Theorem block_name_fixed_point (p : string) :
  path_to_block_name (path_to_block_name p) = path_to_block_name p /\
  (forall fs bs news,
     update_memory_context fs bs (mkUpdate news [path_to_block_name p]) =
     update_memory_context fs bs (mkUpdate news [p])).
Proof.
  assert (Hfix : path_to_block_name (path_to_block_name p) = path_to_block_name p).
  { induction p as [|c p IH]; simpl; [reflexivity|].
    destruct (word_or_hyphen c) eqn:E; simpl; [rewrite E, IH; reflexivity|].
    rewrite IH. reflexivity. }
  split; [exact Hfix|].
  intros fs bs news. unfold update_memory_context. simpl. rewrite Hfix. reflexivity.
Qed.

(** When every current block name is a sanitised name (as all blocks the
    workflow creates are), the existence check of [update_memory_context]
    never fires for a pinnable path: a request pinning only pinnable paths
    appends exactly one block per listed path, repeats and already pinned
    files included, each named after its path. *)
Theorem pin_always_appends (fs : FileSystem) (bs : list MemoryBlock)
    (news : list string)
    (Hnames : forallb (fun b => all_chars word_or_hyphen (name b)) bs = true)
    (Hpin : forallb (fun p => match pinned_content fs p with Some _ => true | None => false end)
                    news = true) :
  update_memory_context fs bs (mkUpdate news []) =
    mkOutcome (bs ++ pin_blocks fs [] news) None /\
  length (pin_blocks fs [] news) = length news /\
  map name (pin_blocks fs [] news) = map path_to_block_name news.
Proof.
  assert (Hfresh : forall p c, pinned_content fs p = Some c ->
                               existsb (String.eqb p) (map name bs) = false).
  { intros p c Hp. destruct (existsb (String.eqb p) (map name bs)) eqn:E; [|reflexivity].
    apply existsb_exists in E as (n & Hn & Heq). apply String.eqb_eq in Heq. subst n.
    apply in_map_iff in Hn as (b & Hb & Hin).
    rewrite forallb_forall in Hnames. specialize (Hnames b Hin).
    rewrite Hb, (pinned_path_not_sanitised fs p c Hp) in Hnames. discriminate Hnames. }
  assert (Hsame : pin_blocks fs (map name bs) news = pin_blocks fs [] news).
  { clear Hnames. induction news as [|p news IH]; [reflexivity|].
    simpl in Hpin. apply andb_true_iff in Hpin as [Hp Hps].
    unfold pin_blocks in *. cbn [flat_map]. rewrite (IH Hps).
    destruct (pinned_content fs p) as [c|] eqn:Ec; [|discriminate Hp].
    rewrite (Hfresh p c Ec). reflexivity. }
  assert (Hacc : forallb (path_accepted fs (map name bs)) news = true).
  { apply forallb_forall. intros p Hin. rewrite forallb_forall in Hpin.
    specialize (Hpin p Hin). unfold path_accepted.
    destruct (pinned_content fs p); [apply orb_true_r | discriminate Hpin]. }
  split.
  - unfold update_memory_context. simpl.
    rewrite add_new_files_accepted by exact Hacc. rewrite Hsame. reflexivity.
  - clear Hsame Hacc Hfresh Hnames. induction news as [|p news IH]; [split; reflexivity|].
    simpl in Hpin. apply andb_true_iff in Hpin as [Hp Hps].
    destruct (IH Hps) as [Hl Hm].
    unfold pin_blocks in *. cbn [flat_map].
    change (existsb (String.eqb p) []) with false.
    destruct (pinned_content fs p) as [c|]; [|discriminate Hp].
    cbn [app length map]. rewrite Hl, Hm. split; reflexivity.
Qed.

Lemma pin_always_appends_witness :
  let bs := blocks_after (update_memory_context example_fs [] (mkUpdate ["./a.txt"] [])) in
  forallb (fun b => all_chars word_or_hyphen (name b)) bs = true /\
  forallb (fun p => match pinned_content example_fs p with Some _ => true | None => false end)
          ["./a.txt"; "./a.txt"; "image.png"] = true /\
  (update_memory_context example_fs bs (mkUpdate ["./a.txt"; "./a.txt"; "image.png"] []) =
     mkOutcome (bs ++ pin_blocks example_fs [] ["./a.txt"; "./a.txt"; "image.png"]) None /\
   length (pin_blocks example_fs [] ["./a.txt"; "./a.txt"; "image.png"]) =
     length ["./a.txt"; "./a.txt"; "image.png"] /\
   map name (pin_blocks example_fs [] ["./a.txt"; "./a.txt"; "image.png"]) =
     map path_to_block_name ["./a.txt"; "./a.txt"; "image.png"]).
Proof.
  cbv zeta.
  assert (H1 : forallb (fun b => all_chars word_or_hyphen (name b))
                 (blocks_after (update_memory_context example_fs [] (mkUpdate ["./a.txt"] [])))
               = true) by (vm_compute; reflexivity).
  assert (H2 : forallb (fun p => match pinned_content example_fs p with
                                 | Some _ => true | None => false end)
                 ["./a.txt"; "./a.txt"; "image.png"] = true) by (vm_compute; reflexivity).
  split; [exact H1|]. split; [exact H2|].
  exact (pin_always_appends example_fs _ _ H1 H2).
Defined.

(** Image paths are pinned by reference: [ImageBlock(path=...)] checks that
    the path names a regular file but never opens it for reading.  For a
    request whose new paths are all image paths, the outcome depends on the
    file system only through which of those paths name regular files, and
    the only exception it can raise is the [ValidationError] of a path that
    names none. *)
Theorem image_pins_only_check_file_existence (fs1 fs2 : FileSystem)
    (bs : list MemoryBlock) (ev : ContextUpdateEvent)
    (Himg : forallb is_image_path (new_file_paths ev) = true)
    (Hsame : forall p, In p (new_file_paths ev) ->
                       is_regular_file (fs1 p) = is_regular_file (fs2 p)) :
  update_memory_context fs1 bs ev = update_memory_context fs2 bs ev /\
  (forall e, raised (update_memory_context fs1 bs ev) = Some e ->
     exists p, In p (new_file_paths ev) /\ is_regular_file (fs1 p) = false /\
               e = ImageValidationError p).
Proof.
  assert (Hadd : forall names acc ps, forallb is_image_path ps = true ->
                   (forall p, In p ps -> is_regular_file (fs1 p) = is_regular_file (fs2 p)) ->
                   add_new_files fs1 names acc ps = add_new_files fs2 names acc ps).
  { intros names acc ps. revert acc.
    induction ps as [|p ps IH]; intros acc H Hs; [reflexivity|].
    simpl in H. apply andb_true_iff in H as [Hp Hps].
    assert (Hs' : forall q, In q ps -> is_regular_file (fs1 q) = is_regular_file (fs2 q))
      by (intros q Hq; apply Hs; right; exact Hq).
    simpl. rewrite Hp. destruct (existsb (String.eqb p) names); [apply IH; assumption|].
    specialize (Hs p (or_introl eq_refl)).
    destruct (fs1 p), (fs2 p); simpl in Hs; try discriminate Hs;
      [reflexivity | apply IH; assumption]. }
  split.
  - unfold update_memory_context. rewrite Hadd by assumption. reflexivity.
  - intros e Herr. unfold update_memory_context in Herr.
    destruct (add_new_files fs1 (map name bs) bs (new_file_paths ev)) as [bs' [e'|]] eqn:Ha;
      simpl in Herr; [|discriminate Herr].
    injection Herr as ->.
    assert (Hs : snd (add_new_files fs1 (map name bs) bs (new_file_paths ev)) = Some e)
      by (rewrite Ha; reflexivity).
    destruct (add_new_files_error _ _ _ _ _ Hs)
      as (pre & p & post & Hsplit & _ & _ & Hc & _).
    assert (Hin : In p (new_file_paths ev))
      by (rewrite Hsplit; apply in_or_app; right; left; reflexivity).
    assert (Hi : is_image_path p = true)
      by (rewrite forallb_forall in Himg; exact (Himg p Hin)).
    exists p. split; [exact Hin|].
    destruct Hc as [(He & _ & Hr) | [(_ & Hn & _) | [(_ & Hn & _) | (_ & Hn & _)]]];
      [split; [exact Hr | exact He] | congruence | congruence | congruence].
Qed.

Lemma image_pins_only_check_file_existence_witness :
  forallb is_image_path (new_file_paths (mkUpdate ["image.png"; "missing.png"] ["./a.txt"]))
    = true /\
  (forall p, In p (new_file_paths (mkUpdate ["image.png"; "missing.png"] ["./a.txt"])) ->
     is_regular_file (example_fs p) =
     is_regular_file ((fun q => if String.eqb q "image.png" then RegularFile Unopenable
                                else NoFile) p)) /\
  update_memory_context example_fs [] (mkUpdate ["image.png"; "missing.png"] ["./a.txt"]) =
  update_memory_context (fun q => if String.eqb q "image.png" then RegularFile Unopenable
                                  else NoFile)
    [] (mkUpdate ["image.png"; "missing.png"] ["./a.txt"]) /\
  (forall e, raised (update_memory_context example_fs []
                       (mkUpdate ["image.png"; "missing.png"] ["./a.txt"])) = Some e ->
     exists p, In p (new_file_paths (mkUpdate ["image.png"; "missing.png"] ["./a.txt"])) /\
               is_regular_file (example_fs p) = false /\ e = ImageValidationError p).
Proof.
  assert (H1 : forallb is_image_path
                 (new_file_paths (mkUpdate ["image.png"; "missing.png"] ["./a.txt"])) = true)
    by (vm_compute; reflexivity).
  assert (H2 : forall p, In p (new_file_paths (mkUpdate ["image.png"; "missing.png"] ["./a.txt"])) ->
     is_regular_file (example_fs p) =
     is_regular_file ((fun q => if String.eqb q "image.png" then RegularFile Unopenable
                                else NoFile) p))
    by (intros p [<-|[<-|[]]]; vm_compute; reflexivity).
  split; [exact H1|]. split; [exact H2|].
  exact (image_pins_only_check_file_existence example_fs _ [] _ H1 H2).
Defined.

(** The two extension tests of [update_memory_context] accept exactly the
    paths that end in one of the listed extensions. *)
Theorem supported_path_suffixes (p : string) :
  (is_image_path p = true <->
   exists pre ext, In ext [".png"; ".jpg"; ".jpeg"] /\ p = String.append pre ext) /\
  (is_text_path p = true <->
   exists pre ext, In ext [".txt"; ".md"; ".py"; ".ipynb"] /\ p = String.append pre ext).
Proof.
  assert (Hany : forall exts, endswith_any p exts = true <->
                              exists pre ext, In ext exts /\ p = String.append pre ext).
  { intros exts. unfold endswith_any. rewrite existsb_exists. split.
    - intros (ext & Hin & He). apply endswith_iff in He as [pre Hp]. eauto.
    - intros (pre & ext & Hin & Hp). exists ext. split; [exact Hin|].
      apply endswith_iff. eauto. }
  split; apply Hany.
Qed.

